(** * The request pipeline and the device model of the resin SDK

    A shallow embedding of [build/server-utils.js] and of the query
    operations of [build/models/device.js], followed by the properties
    that the specification of the repository states about them.

    Conventions of the embedding.
    - A JavaScript value that may be [undefined] or [null] is a
      [Nullable]; the test [x == null] is [is_nullish].
    - A function that may throw returns a [Completion].
    - The body of a callback runs in [Eff E]: it appends the calls it
      makes to the caller's callback (the events [E]) and may throw.
    - An asynchronous entry point returns, as its synchronous result, the
      continuation that it hands to its collaborator; the collaborator's
      report (probe result, token, response, settled promise) is the
      argument that continuation is later applied to. *)

From Stdlib Require Import ZArith QArith List String.
From stdpp Require Import gmap strings.
Import ListNotations.

Local Open Scope string_scope.
Local Open Scope Z_scope.
Local Open Scope list_scope.

(** ** JavaScript values and control *)

Module Js.

Inductive Nullable (A : Type) : Type :=
| JUndefined
| JNull
| JVal (a : A).
Arguments JUndefined {A}.
Arguments JNull {A}.
Arguments JVal {A} a.

(** [x == null] *)
Definition is_nullish {A} (x : Nullable A) : bool :=
  match x with
  | JVal _ => false
  | _ => true
  end.

(** An error object: the name of its class and its [message]. *)
Record JsError := { err_class : string; err_message : string }.

(** [new Error(message)] *)
Definition new_Error (message : string) : JsError :=
  {| err_class := "Error"; err_message := message |}.

(** The fault of reading a property of [undefined] or [null]. *)
Definition new_TypeError (message : string) : JsError :=
  {| err_class := "TypeError"; err_message := message |}.

(** The fault of evaluating an identifier that no scope binds. *)
Definition new_ReferenceError (name : string) : JsError :=
  {| err_class := "ReferenceError"; err_message := name +:+ " is not defined" |}.

(** The fault of [JSON.parse] on a text that is not JSON. *)
Definition new_SyntaxError (message : string) : JsError :=
  {| err_class := "SyntaxError"; err_message := message |}.

Inductive Completion (A : Type) : Type :=
| Normal (a : A)
| Throw (e : JsError).
Arguments Normal {A} a.
Arguments Throw {A} e.

(** Code that calls back: the calls it made, in order, and how it ended. *)
Definition Eff (E A : Type) : Type := (list E * Completion A)%type.

Definition ret {E A} (a : A) : Eff E A := ([], Normal a).

Definition bind {E A B} (m : Eff E A) (k : A -> Eff E B) : Eff E B :=
  match m with
  | (calls, Normal a) => let (calls', r) := k a in (calls ++ calls', r)
  | (calls, Throw e) => (calls, Throw e)
  end.

(** [try { m } catch (e) { h e }] *)
Definition try_catch {E A} (m : Eff E A) (h : JsError -> Eff E A) : Eff E A :=
  match m with
  | (calls, Normal a) => (calls, Normal a)
  | (calls, Throw e) => let (calls', r) := h e in (calls ++ calls', r)
  end.

(** A synchronous step that may throw, used inside a callback body. *)
Definition lift {E A} (c : Completion A) : Eff E A := ([], c).

(** The caller's callback, seen from the code under study: the call is
    recorded and the callback returns normally. *)
Definition notify {E} (call : E) : Eff E unit := ([call], Normal tt).

(** A callback of the caller that may do anything once called: the call
    is recorded, then the callback returns or throws as [behaviour] says. *)
Definition callback_that {E} (behaviour : E -> Completion unit) (call : E) : Eff E unit :=
  ([call], behaviour call).

Definition calls_of {E A} (m : Eff E A) : list E := fst m.

Definition outcome_of {E A} (m : Eff E A) : Completion A := snd m.

(** A continuation kept by a collaborator until it has something to report. *)
Definition Pending (Report E : Type) : Type := Report -> Eff E unit.

(** A promise once it has settled. *)
Inductive Settled (A : Type) : Type :=
| Resolved (a : A)
| Rejected (e : JsError).
Arguments Resolved {A} a.
Arguments Rejected {A} e.

(** [p.then(f)]: [f] runs on the value of a resolved promise; if [f]
    throws, the new promise is rejected with what it threw; a rejected
    promise passes through. *)
Definition then_ {E A B} (p : Settled A) (f : A -> Eff E B) : Eff E (Settled B) :=
  match p with
  | Resolved a =>
      match f a with
      | (calls, Normal b) => (calls, Normal (Resolved b))
      | (calls, Throw e) => (calls, Normal (Rejected e))
      end
  | Rejected e => ([], Normal (Rejected e))
  end.

(** [p["catch"](g)]: [g] runs on the reason of a rejected promise. *)
Definition catch_ {E A} (p : Settled A) (g : JsError -> Eff E A) : Eff E (Settled A) :=
  match p with
  | Resolved a => ([], Normal (Resolved a))
  | Rejected e =>
      match g e with
      | (calls, Normal a) => (calls, Normal (Resolved a))
      | (calls, Throw e') => (calls, Normal (Rejected e'))
      end
  end.

End Js.

Import Js.

Notation "x <- m ;; k" := (bind m (fun x => k))
  (at level 62, m at next level, right associativity).
Notation "m ;;; k" := (bind m (fun _ => k))
  (at level 62, right associativity).

(** ** build/server-utils.js *)

Module ServerUtils.

(** Header names to header values. *)
Definition Headers : Type := gmap string string.

(** The destination of a streamed response, by name. *)
Definition Sink : Type := string.

(** The options object of a request. *)
Record Options := {
  url : string;
  method : string;
  headers : Nullable Headers;
  request_body : Nullable string;
  pipe : Nullable Sink
}.

(** [options.headers = h] *)
Definition set_headers (options : Options) (h : Headers) : Options :=
  {| url := url options; method := method options; headers := JVal h;
     request_body := request_body options; pipe := pipe options |}.

(** A call of an error-only callback: [callback()] is [JUndefined],
    [callback(error)] is the error it was given. *)
Definition ErrorCall : Type := Nullable JsError.

(** [connection.isOnline(k)]: the probe starts and keeps [k]; its report
    is an error or a boolean. *)
Definition connection_isOnline {E} (k : Nullable JsError -> bool -> Eff E unit)
  : Completion (Pending (Nullable JsError * bool) E) :=
  Normal (fun report => k (fst report) (snd report)).

Definition checkIfOnline {E} (callback : ErrorCall -> Eff E unit)
  : Completion (Pending (Nullable JsError * bool) E) :=
  connection_isOnline (fun error isOnline =>
    if negb (is_nullish error) then callback error
    else if isOnline then callback JUndefined
    else callback (JVal (new_Error "You need internet connection to perform this task"))).

(** The object is changed in place and returned: the map returned stands
    for the state of the caller's [headers] object as well. *)
Definition addAuthorizationHeader (headers : Nullable Headers) (token : Nullable string)
  : Completion Headers :=
  let headers := match headers with JVal h => h | _ => ∅ end in
  match token with
  | JVal t => Normal (<["Authorization" := "Bearer " +:+ t]> headers)
  | _ => Throw (new_Error "Missing token")
  end.

(** [auth.getToken(k)]: the token store keeps [k]; its report is an error
    or the token, absent for an anonymous caller. *)
Definition auth_getToken {E A} (k : Nullable JsError -> Nullable string -> Eff E A)
  : Completion (Nullable JsError * Nullable string -> Eff E A) :=
  Normal (fun report => k (fst report) (snd report)).

(** The continuation returns the state of the [options] object after it
    ran, since it assigns [options.headers]. *)
Definition authenticate {E} (options : Nullable Options) (callback : ErrorCall -> Eff E unit)
  : Completion (Nullable JsError * Nullable string -> Eff E Options) :=
  match options with
  | JVal options =>
      auth_getToken (fun error token =>
        if negb (is_nullish error) then callback error ;;; ret options
        else
          options' <-
            (if negb (is_nullish token)
             then h <- lift (addAuthorizationHeader (headers options) token) ;;
                  ret (set_headers options h)
             else ret options) ;;
          callback JUndefined ;;; ret options')
  | _ => Throw (new_Error "Missing options")
  end.

(** *** sendRequest *)

(** The global [JSON]: [JSON.parse(text)] returns the structure that the
    text denotes or throws. It runs in [Eff E] so that an instance can
    record each attempt. *)
Class JSON (E Json : Type) := { JSON_parse : string -> Eff E Json }.

(** [response.body] is text when the transport delivers the response and
    may hold a parsed structure once [sendRequest] has assigned it. *)
Inductive Body (Json : Type) : Type :=
| Text (s : string)
| Parsed (j : Json).
Arguments Text {Json} s.
Arguments Parsed {Json} j.

Record Response (B : Type) := { statusCode : Z; body : B }.
Arguments statusCode {B} _.
Arguments body {B} _.

(** [response.body = b] *)
Definition set_body {B B'} (response : Response B) (b : B') : Response B' :=
  {| statusCode := statusCode response; body := b |}.

(** The arguments of one call of the callback of [sendRequest]; an
    argument that is not passed is [JUndefined]. *)
Record SendCall (Json : Type) := {
  call_error : Nullable JsError;
  call_response : Nullable (Response (Body Json));
  call_body : Nullable (Body Json)
}.
Arguments call_error {Json} _.
Arguments call_response {Json} _.
Arguments call_body {Json} _.

(** What the transport reports: an error, or a response with a text body. *)
Definition TransportReport : Type := (Nullable JsError * Nullable (Response string))%type.

(** [connection.request(options, k)]: the request is issued and [k] kept. *)
Definition connection_request {E} (options : Nullable Options)
    (k : Nullable JsError -> Nullable (Response string) -> Eff E unit)
  : Completion (Pending TransportReport E) :=
  Normal (fun report => k (fst report) (snd report)).

(** Reading a property of [response]: a fault when there is no response. *)
Definition property_of {A} (x : Nullable A) (name : string) : Completion A :=
  match x with
  | JVal a => Normal a
  | JNull => Throw (new_TypeError ("Cannot read property '" +:+ name +:+ "' of null"))
  | JUndefined => Throw (new_TypeError ("Cannot read property '" +:+ name +:+ "' of undefined"))
  end.

Definition sendRequest {E Json} `{JSON E Json} (options : Nullable Options)
    (callback : SendCall Json -> Eff E unit)
  : Completion (Pending TransportReport E) :=
  connection_request options (fun error response =>
    if negb (is_nullish error)
    then callback {| call_error := error; call_response := JUndefined; call_body := JUndefined |}
    else
      response <- lift (property_of response "statusCode") ;;
      if 400 <=? statusCode response
      then callback {| call_error := JVal (new_Error (body response));
                       call_response := JUndefined; call_body := JUndefined |}
      else
        parsed <- try_catch (j <- JSON_parse (body response) ;; ret (Parsed j))
                            (fun _error => ret (Text (body response))) ;;
        let response := set_body response parsed in
        callback {| call_error := JNull; call_response := JVal response;
                    call_body := JVal (body response) |}).

(** *** The progress tracker *)

(** A raw transfer event: the time it is observed at (seconds), the
    cumulative bytes transferred, and the total size when known. *)
Record RawTransferEvent := {
  at_time : Q;
  transferred : Z;
  total : option Z
}.

Record ProgressSnapshot := {
  snap_percentage : option Z;
  snap_transferred : Z;
  snap_total : option Z;
  snap_speed : Q;
  snap_eta : option Q
}.

(** The state one tracker carries between events: the previous sample
    (time and cumulative bytes), none before the first event, and the
    last rate it reported. *)
Record Tracker := {
  previous : option (Q * Z);
  rate : Q
}.

Definition fresh_tracker : Tracker := {| previous := None; rate := 0%Q |}.

(** Modelled from the spec: the module [./progress-state] is not among
    the sources. "percentage = floor(100 x transferred / total) when total
    is known; otherwise undefined"; a total of 0 gives undefined. *)
Definition percentage_of (ev : RawTransferEvent) : option Z :=
  match total ev with
  | Some t => if t =? 0 then None else Some (100 * transferred ev / t)
  | None => None
  end.

(** Modelled from the spec: the module [./progress-state] is not among
    the sources. "speed = (bytes transferred since previous sample) /
    (elapsed time since previous sample); the very first sample has no
    prior reference and reports speed 0"; an elapsed time of 0 gives 0. *)
Definition speed_of (tr : Tracker) (ev : RawTransferEvent) : Q :=
  match previous tr with
  | None => 0%Q
  | Some (t0, b0) =>
      let elapsed := (at_time ev - t0)%Q in
      if Qeq_bool elapsed 0 then 0%Q
      else Qred (inject_Z (transferred ev - b0) / elapsed)
  end.

(** Modelled from the spec: the module [./progress-state] is not among
    the sources. "eta = (total - transferred) / speed when speed > 0 and
    total known; otherwise undefined". *)
Definition eta_of (ev : RawTransferEvent) (speed : Q) : option Q :=
  match total ev with
  | Some t =>
      if Qle_bool speed 0 then None
      else Some (Qred (inject_Z (t - transferred ev) / speed))
  | None => None
  end.

(** Modelled from the spec: the module [./progress-state] is not among
    the sources. One event gives one snapshot and the state for the next
    event. *)
Definition track (tr : Tracker) (ev : RawTransferEvent) : Tracker * ProgressSnapshot :=
  let speed := speed_of tr ev in
  ({| previous := Some (at_time ev, transferred ev); rate := speed |},
   {| snap_percentage := percentage_of ev;
      snap_transferred := transferred ev;
      snap_total := total ev;
      snap_speed := speed;
      snap_eta := eta_of ev speed |}).

(** Modelled from the spec: the module [./progress-state] is not among
    the sources. "given a sequence of RawTransferEvents for one logical
    transfer, produce a matching sequence of ProgressSnapshots, one per
    input event, preserving order". *)
Fixpoint snapshots (tr : Tracker) (evs : list RawTransferEvent) : list ProgressSnapshot :=
  match evs with
  | [] => []
  | ev :: evs' => let (tr', snap) := track tr ev in snap :: snapshots tr' evs'
  end.

(** *** pipeRequest *)

(** The two event emitters of a streamed request: the request, which
    [progress] returns after it has made it emit [progress] events, and
    the destination that [pipe] returns. *)
Inductive Emitter : Type :=
| TheRequest
| TheSink (sink : Sink).

#[global] Instance Emitter_eq_dec : EqDecision Emitter.
Proof. solve_decision. Defined.

(** The argument an event is emitted with. *)
Inductive EventArg : Type :=
| NoArg
| ErrorArg (e : JsError)
| StateArg (state : RawTransferEvent).

(** A listener; it is given, and gives back, the state of the tracker of
    this transfer, the only state a listener of [pipeRequest] keeps. *)
Definition Listener (E : Type) : Type := Tracker -> EventArg -> Eff E Tracker.

Record Registration (E : Type) := {
  reg_emitter : Emitter;
  reg_event : string;
  reg_listener : Listener E
}.
Arguments reg_emitter {E} _.
Arguments reg_event {E} _.
Arguments reg_listener {E} _.

(** The listeners attached so far, in the order they were attached. *)
Definition Wiring (E : Type) : Type := list (Registration E).

(** [emitter.on(event, listener)] *)
Definition on {E} (emitter : Emitter) (event : string) (listener : Listener E)
    (w : Wiring E) : Wiring E :=
  w ++ [{| reg_emitter := emitter; reg_event := event; reg_listener := listener |}].

(** A function that keeps no state, as a listener. *)
Definition plain {E} (f : EventArg -> Eff E unit) : Listener E :=
  fun tr arg => f arg ;;; ret tr.

(** Modelled from the spec: the module [./progress-state] is not among
    the sources. The listener made for [onProgress] turns each raw event
    into a snapshot and calls [onProgress] with it. It is attached to
    [progress] only, whose events carry a state. *)
Definition createFromNodeRequestProgress {E} (onProgress : ProgressSnapshot -> Eff E unit)
  : Listener E :=
  fun tr arg =>
    match arg with
    | StateArg state => let (tr', snap) := track tr state in onProgress snap ;;; ret tr'
    | _ => ret tr
    end.

(** [source.pipe(destination)] returns the destination; without one the
    chained [on] has nothing to be called on. *)
Definition pipe_to (destination : Nullable Sink) : Completion Emitter :=
  match destination with
  | JVal sink => Normal (TheSink sink)
  | _ => Throw (new_TypeError "Cannot read property 'on' of undefined")
  end.

(** The module [./connection] is not among the sources: what the call
    [connection.request(options)] does before it returns, which is to
    return the request or to throw, is a parameter. *)
Class Connection := { request_stream : Nullable Options -> Completion unit }.

(** The connection whose [request] returns the request. *)
Definition started : Connection := {| request_stream := fun _ => Normal tt |}.

(** [connection.request(options)] is called first; when it throws
    nothing is attached. [progress] returns the request itself, now
    emitting [progress] events. [options.pipe] is read after the first two
    listeners are attached, which stay attached when that read or [pipe]
    throws. The result is the listeners attached and how the call ended. *)
Definition pipeRequest {E} `{Connection} (options : Nullable Options)
    (callback : EventArg -> Eff E unit) (onProgress : ProgressSnapshot -> Eff E unit)
  : Wiring E * Completion unit :=
  match request_stream options with
  | Throw e => ([], Throw e)
  | Normal _ =>
      let request := TheRequest in
      let w := on request "progress" (createFromNodeRequestProgress onProgress) [] in
      let w := on request "error" (plain callback) w in
      match property_of options "pipe" with
      | Normal options =>
          match pipe_to (pipe options) with
          | Normal sink =>
              let w := on sink "error" (plain callback) w in
              let w := on sink "close" (plain callback) w in
              (w, Normal tt)
          | Throw e => (w, Throw e)
          end
      | Throw e => (w, Throw e)
      end
  end.

(** An event as one of the emitters emits it. *)
Record Emission := {
  em_emitter : Emitter;
  em_event : string;
  em_arg : EventArg
}.

(** [emitter.emit(event, arg)]: the listeners attached to that event of
    that emitter are called in the order they were attached. *)
Fixpoint emit {E} (w : Wiring E) (em : Emission) (tr : Tracker) : Eff E Tracker :=
  match w with
  | [] => ret tr
  | r :: w' =>
      if decide (em_emitter em = reg_emitter r /\ em_event em = reg_event r)
      then tr' <- reg_listener r tr (em_arg em) ;; emit w' em tr'
      else emit w' em tr
  end.

(** The life of one transfer: the events of its emitters, in order. *)
Fixpoint transfer {E} (w : Wiring E) (ems : list Emission) (tr : Tracker) : Eff E Tracker :=
  match ems with
  | [] => ret tr
  | em :: ems' => tr' <- emit w em tr ;; transfer w ems' tr'
  end.

(** What the two callbacks of [pipeRequest] are called with. *)
Inductive Notification : Type :=
| OnComplete (arg : EventArg)
| OnProgress (snap : ProgressSnapshot).

(** The events that [callback] is attached to. *)
Definition terminal (sink : Sink) (em : Emission) : bool :=
  bool_decide (em_emitter em = TheRequest /\ em_event em = "error") ||
  bool_decide (em_emitter em = TheSink sink /\ em_event em = "error") ||
  bool_decide (em_emitter em = TheSink sink /\ em_event em = "close").

(** *** Observing a run

    The callbacks and the parser that the properties below run the entry
    points with: each records what it is called with. *)

Definition record_error : ErrorCall -> Eff ErrorCall unit := notify.


(** [sendRequest]: the parse attempts and the calls of the callback. *)
Inductive SendEvent (Json : Type) : Type :=
| ParseAttempt (text : string)
| Callback (call : SendCall Json).
Arguments ParseAttempt {Json} text.
Arguments Callback {Json} call.

Definition record_call {Json} (call : SendCall Json) : Eff (SendEvent Json) unit :=
  notify (Callback call).


(** [JSON.parse] from the function it computes: [None] is a text that is
    not JSON, on which it throws. *)
Definition recording_JSON {Json} (parse : string -> option Json)
  : JSON (SendEvent Json) Json :=
  {| JSON_parse := fun text =>
       ([ParseAttempt text],
        match parse text with
        | Some j => Normal j
        | None => Throw (new_SyntaxError "Unexpected token")
        end) |}.

Fixpoint callbacks {Json} (l : list (SendEvent Json)) : list (SendCall Json) :=
  match l with
  | [] => []
  | Callback call :: l' => call :: callbacks l'
  | ParseAttempt _ :: l' => callbacks l'
  end.

Fixpoint parse_attempts {Json} (l : list (SendEvent Json)) : list string :=
  match l with
  | [] => []
  | ParseAttempt text :: l' => text :: parse_attempts l'
  | Callback _ :: l' => parse_attempts l'
  end.

(** The transport reports an error or a response. *)
Definition transport_contract (report : TransportReport) : Prop :=
  is_nullish (fst report) = false \/ is_nullish (snd report) = false.

(** [callback(error)] *)
Definition error_call {Json} (e : JsError) : SendCall Json :=
  {| call_error := JVal e; call_response := JUndefined; call_body := JUndefined |}.

(** [callback(null, response, response.body)] *)
Definition success_call {Json} (response : Response (Body Json)) : SendCall Json :=
  {| call_error := JNull; call_response := JVal response; call_body := JVal (body response) |}.

Definition delivers_error {Json} (call : SendCall Json) : Prop :=
  is_nullish (call_error call) = false.

Definition delivers_success {Json} (call : SendCall Json) : Prop :=
  is_nullish (call_response call) = false.

(** [pipeRequest]: the calls of [callback] and of [onProgress]. *)
Definition record_complete (arg : EventArg) : Eff Notification unit :=
  notify (OnComplete arg).

Definition record_progress (snap : ProgressSnapshot) : Eff Notification unit :=
  notify (OnProgress snap).

Fixpoint completions (l : list Notification) : list EventArg :=
  match l with
  | [] => []
  | OnComplete arg :: l' => arg :: completions l'
  | OnProgress _ :: l' => completions l'
  end.

(** The listeners [pipeRequest] attaches when the options name a sink. *)
Definition wired (sink : Sink) : Wiring Notification :=
  [ {| reg_emitter := TheRequest; reg_event := "progress";
       reg_listener := createFromNodeRequestProgress record_progress |};
    {| reg_emitter := TheRequest; reg_event := "error";
       reg_listener := plain record_complete |};
    {| reg_emitter := TheSink sink; reg_event := "error";
       reg_listener := plain record_complete |};
    {| reg_emitter := TheSink sink; reg_event := "close";
       reg_listener := plain record_complete |} ].

(** The calls of [onComplete] over one transfer with the given events,
    the connection having returned the request. *)
Definition completions_of (options : Nullable Options) (ems : list Emission)
  : Completion (list EventArg) :=
  match @pipeRequest _ started options record_complete record_progress with
  | (w, Normal _) => Normal (completions (calls_of (transfer w ems fresh_tracker)))
  | (_, Throw e) => Throw e
  end.

(** [options.headers[key]], absent when there are no headers. *)
Definition header_of (options : Options) (key : string) : option string :=
  match headers options with
  | JVal h => h !! key
  | _ => None
  end.

(** Examples. *)
Definition download : Options :=
  {| url := "/download"; method := "GET"; headers := JUndefined;
     request_body := JUndefined; pipe := JVal "image.img" |}.

Definition request_error (e : JsError) : Emission :=
  {| em_emitter := TheRequest; em_event := "error"; em_arg := ErrorArg e |}.

Definition sink_error (sink : Sink) (e : JsError) : Emission :=
  {| em_emitter := TheSink sink; em_event := "error"; em_arg := ErrorArg e |}.

Definition sink_close (sink : Sink) : Emission :=
  {| em_emitter := TheSink sink; em_event := "close"; em_arg := NoArg |}.

Definition request_progress (state : RawTransferEvent) : Emission :=
  {| em_emitter := TheRequest; em_event := "progress"; em_arg := StateArg state |}.

(** A parser for the examples: it knows the three literals of JSON. *)
Definition parse_literal (text : string) : option (option bool) :=
  if String.eqb text "true" then Some (Some true)
  else if String.eqb text "false" then Some (Some false)
  else if String.eqb text "null" then Some None
  else None.

End ServerUtils.

(** ** build/models/device.js *)

Module Device.

(** The module [../errors] is not among the sources: the text of the
    messages of its classes is a parameter. *)
Class ErrorMessages := {
  NotAny_message : string -> string;
  NotFound_message : string -> string
}.

(** [new errors.NotAny(resource)] *)
Definition errors_NotAny `{ErrorMessages} (resource : string) : JsError :=
  {| err_class := "NotAny"; err_message := NotAny_message resource |}.

(** [new errors.NotFound(name)] *)
Definition errors_NotFound `{ErrorMessages} (name : string) : JsError :=
  {| err_class := "NotFound"; err_message := NotFound_message name |}.

Record Application := { app_name : Nullable string }.

(** A device as the API returns it, with its application expanded. *)
Record Device := {
  uuid : string;
  name : string;
  application : Nullable (list Application);
  application_name : Nullable string
}.

(** [device.application_name = v] *)
Definition set_application_name (device : Device) (v : Nullable string) : Device :=
  {| uuid := uuid device; name := name device; application := application device;
     application_name := v |}.

(** The arguments of one call of a callback [(error, result)]; an
    argument that is not passed is [JUndefined]. *)
Record Call (R : Type) := { cb_error : Nullable JsError; cb_result : Nullable R }.
Arguments cb_error {R} _.
Arguments cb_result {R} _.

(** [callback(error)] *)
Definition failure {R} (error : JsError) : Call R :=
  {| cb_error := JVal error; cb_result := JUndefined |}.

(** [callback(null, result)] *)
Definition success {R} (result : Nullable R) : Call R :=
  {| cb_error := JNull; cb_result := result |}.

(** The query given to [pine.get]. *)
Record Query := {
  resource : string;
  query_id : Nullable string;
  filter_application : Nullable string;
  expand : Nullable string;
  orderby : Nullable string
}.

(** [pine.get(query)] returns a promise; [chain] is what the caller
    attaches to it, run once the promise has settled. *)
Definition pine_get {E A} (query : Query) (chain : Settled (Nullable A) -> Eff E unit)
  : Completion (Pending (Settled (Nullable A)) E) :=
  Normal chain.

(** [_.isEmpty] on what a list query resolves with. *)
Definition isEmpty {A} (collection : Nullable (list A)) : bool :=
  match collection with
  | JVal (_ :: _) => false
  | _ => true
  end.

(** [_.map(collection, f)] *)
Fixpoint map_list {E A B} (f : A -> Eff E B) (l : list A) : Eff E (list B) :=
  match l with
  | [] => ret []
  | x :: l' => y <- f x ;; ys <- map_list f l' ;; ret (y :: ys)
  end.

Definition map_ {E A B} (collection : Nullable (list A)) (f : A -> Eff E B) : Eff E (list B) :=
  match collection with
  | JVal l => map_list f l
  | _ => ret []
  end.

(** [device.application[0].app_name] *)
Definition first_app_name (device : Device) : Completion (Nullable string) :=
  match application device with
  | JVal (app :: _) => Normal (app_name app)
  | JVal [] => Throw (new_TypeError "Cannot read property 'app_name' of undefined")
  | JNull => Throw (new_TypeError "Cannot read property '0' of null")
  | JUndefined => Throw (new_TypeError "Cannot read property '0' of undefined")
  end.


Definition getAllByApplication {E} `{ErrorMessages} (applicationId : string)
    (callback : Call (list Device) -> Eff E unit)
  : Completion (Pending (Settled (Nullable (list Device))) E) :=
  pine_get {| resource := "device"; query_id := JUndefined;
              filter_application := JVal applicationId;
              expand := JVal "application"; orderby := JVal "name asc" |}
    (fun promise =>
       p <- then_ promise (fun devices =>
              if isEmpty devices then callback (failure (errors_NotAny "devices"))
              else
                devices <- map_ devices (fun device =>
                             n <- lift (first_app_name device) ;;
                             ret (set_application_name device n)) ;;
                callback (success (JVal devices))) ;;
       _ <- catch_ p (fun error => callback (failure error)) ;;
       ret tt).

(** What an identifier can be bound to, as far as [+] on strings sees it. *)
Inductive Binding : Type :=
| BString (s : string)
| BObject.

Definition to_String (b : Binding) : string :=
  match b with
  | BString s => s
  | BObject => "[object Object]"
  end.

(** The identifiers in scope in the function given to [then] in [get],
    innermost first: its parameter, the parameters of [get], the variables
    of the module, and the names the module system binds. The global
    object has no property named [id]. *)
Definition scope_of_get (deviceId : string) : list (string * Binding) :=
  [("device", BObject);
   ("deviceId", BString deviceId); ("callback", BObject);
   ("DEVICES", BObject); ("errors", BObject); ("pine", BObject);
   ("server", BObject); ("settings", BObject); ("_", BObject);
   ("exports", BObject); ("require", BObject); ("module", BObject);
   ("__filename", BObject); ("__dirname", BObject)].

(** Evaluating an identifier: a fault when no scope binds it. *)
Fixpoint identifier (scope : list (string * Binding)) (x : string) : Completion Binding :=
  match scope with
  | [] => Throw (new_ReferenceError x)
  | (y, b) :: scope' => if String.eqb x y then Normal b else identifier scope' x
  end.

Definition get {E} `{ErrorMessages} (deviceId : string) (callback : Call Device -> Eff E unit)
  : Completion (Pending (Settled (Nullable Device)) E) :=
  pine_get {| resource := "device"; query_id := JVal deviceId; filter_application := JUndefined;
              expand := JVal "application"; orderby := JUndefined |}
    (fun promise =>
       p <- then_ promise (fun device =>
              match device with
              | JVal device =>
                  n <- lift (first_app_name device) ;;
                  callback (success (JVal (set_application_name device n)))
              | _ =>
                  id <- lift (identifier (scope_of_get deviceId) "id") ;;
                  callback (failure (errors_NotFound ("device " +:+ to_String id)))
              end) ;;
       _ <- catch_ p (fun error => callback (failure error)) ;;
       ret tt).

(** *** remove, rename, note *)







(** *** isValidUUID *)




(** *** The device types *)

(** An entry of [device-data.json]: the names a type is also known by and
    its slug. *)
Record DeviceType := {
  names : Nullable (list string);
  slug : Nullable string
}.

(** The file [./device-data.json] is not among the sources: [DEVICES],
    the entries of its object in the order they are enumerated, is a
    parameter. The keys of an object are distinct. *)
Class DeviceData := { DEVICES : list (string * DeviceType) }.

(** [_.indexOf(array, value)]: the first position of the value, -1 when it
    does not occur or there is no array. *)
Fixpoint index_from (l : list string) (value : string) (i : Z) : Z :=
  match l with
  | [] => -1
  | x :: l' => if String.eqb x value then i else index_from l' value (i + 1)
  end.

Definition indexOf (array : Nullable (list string)) (value : string) : Z :=
  match array with
  | JVal l => index_from l value 0
  | _ => -1
  end.

(** [DEVICES[key]] *)
Fixpoint entry_of (entries : list (string * DeviceType)) (key : string)
  : Nullable DeviceType :=
  match entries with
  | [] => JUndefined
  | (k, value) :: rest => if String.eqb k key then JVal value else entry_of rest key
  end.

Definition getSupportedDeviceTypes `{DeviceData} : list string :=
  map fst DEVICES.

(** The loop [for (key in DEVICES)] of [getDisplayName], with the
    [return 'Unknown'] that follows it. *)
Fixpoint first_named (entries : list (string * DeviceType)) (device : string) : string :=
  match entries with
  | [] => "Unknown"
  | (key, value) :: rest =>
      if negb (indexOf (names value) device =? -1) then key
      else first_named rest device
  end.

Definition getDisplayName `{DeviceData} (device : string) : string :=
  if negb (indexOf (JVal getSupportedDeviceTypes) device =? -1) then device
  else first_named DEVICES device.

(** [x || 'unknown'] on a slug: an absent or empty slug is falsy. *)
Definition or_unknown (x : Nullable string) : string :=
  match x with
  | JVal s => if String.eqb s "" then "unknown" else s
  | _ => "unknown"
  end.

Definition getDeviceSlug `{DeviceData} (device : string) : string :=
  let displayName := getDisplayName device in
  let _ref := entry_of DEVICES displayName in
  or_unknown (match _ref with
              | JVal value => slug value
              | _ => JUndefined
              end).

(** A name that some entry lists among its [names]. *)
Definition is_alias `{DeviceData} (device : string) : Prop :=
  exists key value l, In (key, value) DEVICES /\ names value = JVal l /\ In device l.

(** *** Observing a run *)

(** The device has its application expanded, with at least one entry. *)
Definition expanded (device : Device) : Prop :=
  exists app apps, application device = JVal (app :: apps).

(** [device'] is [device] with [application_name] set from the first of
    its applications, and nothing else changed. *)
Definition named (device device' : Device) : Prop :=
  uuid device' = uuid device /\
  name device' = name device /\
  application device' = application device /\
  first_app_name device = Normal (application_name device').

Definition record {R} : Call R -> Eff (Call R) unit := notify.

(** A table for the examples. *)
Definition sample_devices : DeviceData :=
  {| DEVICES :=
       [("Raspberry Pi",
         {| names := JVal ["raspberry-pi"; "raspberrypi"; "rpi"]; slug := JVal "raspberry-pi" |});
        ("BeagleBone Black",
         {| names := JVal ["beaglebone-black"; "bbb"]; slug := JVal "beaglebone-black" |});
        ("Prototype", {| names := JUndefined; slug := JVal "" |})] |}.

(** Messages for the examples. *)
Definition sample_messages : ErrorMessages :=
  {| NotAny_message := fun resource => "You don't have any " +:+ resource;
     NotFound_message := fun name => "Couldn't find " +:+ name |}.

Definition raspberry : Device :=
  {| uuid := "23c73a12e3527df55c60b9ce647640c1b7da1b32d71e6a21369ac0f00db828";
     name := "kitchen"; application := JVal [{| app_name := JVal "thermostat" |}];
     application_name := JUndefined |}.

End Device.

(** ** Properties of build/server-utils.js *)

Module ServerUtilsFacts.
Import ServerUtils.

(** *** Shared lemmas *)

Lemma nullish_cases {A} (x : Nullable A) :
  is_nullish x = true -> x = JUndefined \/ x = JNull.
Proof. destruct x; simpl; intros H; auto; discriminate. Qed.

Lemma present_cases {A} (x : Nullable A) :
  is_nullish x = false -> exists a, x = JVal a.
Proof. destruct x; simpl; intros H; try discriminate; eauto. Qed.

(** *** checkIfOnline *)

(** C2, as the code has it: [checkIfOnline] hands one continuation to the
    probe; when the probe fails the callback receives the probe's error;
    when it reports online the callback is called without an error; when
    it reports offline the callback receives a plain [Error] whose message
    is "You need internet connection to perform this task". In each case
    the callback is called once and nothing is thrown. *)
Theorem checkIfOnline_reports :
  exists k, checkIfOnline record_error = Normal k /\
    (forall e isOnline, k (JVal e, isOnline) = ([JVal e], Normal tt)) /\
    k (JNull, true) = ([JUndefined], Normal tt) /\
    k (JUndefined, true) = ([JUndefined], Normal tt) /\
    k (JNull, false) =
      ([JVal (new_Error "You need internet connection to perform this task")], Normal tt) /\
    k (JUndefined, false) =
      ([JVal (new_Error "You need internet connection to perform this task")], Normal tt).
Proof.
  eexists. split; [reflexivity|].
  repeat split; intros; reflexivity.
Qed.

(** C2, as the spec words it, fails when the probe reports offline: the
    error the callback receives is not a ConnectivityError and its message
    is not "no network connectivity". *)
Lemma checkIfOnline_offline_message :
  ~ (exists k e, checkIfOnline record_error = Normal k /\
       calls_of (k (JNull, false)) = [JVal e] /\
       err_class e = "ConnectivityError" /\
       err_message e = "no network connectivity").
Proof.
  intros (k & e & Hk & Hcalls & Hclass & Hmsg).
  injection Hk as <-. simpl in Hcalls.
  injection Hcalls as <-. discriminate Hclass.
Qed.

(** *** addAuthorizationHeader *)

(** C5: with a token [T], [addAuthorizationHeader H T] returns headers in
    which [Authorization] is ["Bearer " + T] and every other key is as in
    [H]; when [H] is absent the result is the empty header set with that
    one entry; without a token it throws, whatever [H] is. *)
Theorem addAuthorizationHeader_spec (H : Nullable Headers) (T : string) :
  (exists H' : Headers,
      addAuthorizationHeader H (JVal T) = Normal H' /\
      H' !! "Authorization" = Some ("Bearer " +:+ T) /\
      (forall (h : Headers) (key : string),
          H = JVal h -> key <> "Authorization" -> H' !! key = h !! key) /\
      (is_nullish H = true -> H' = {[ "Authorization" := "Bearer " +:+ T ]})) /\
  addAuthorizationHeader H JNull = Throw (new_Error "Missing token") /\
  addAuthorizationHeader H JUndefined = Throw (new_Error "Missing token").
Proof.
  split; [|split; reflexivity].
  eexists. split; [reflexivity|]. split; [|split].
  - apply lookup_insert_eq.
  - intros h key -> Hkey. simpl. apply lookup_insert_ne. congruence.
  - destruct H; simpl; intros Hn; try discriminate; apply insert_empty.
Qed.

Lemma addAuthorizationHeader_spec_witness :
  exists H' : Headers,
    addAuthorizationHeader (JVal {[ "Accept" := "application/json" ]}) (JVal "t0k3n") =
      Normal H' /\
    H' !! "Authorization" = Some "Bearer t0k3n" /\
    H' !! "Accept" = Some "application/json".
Proof.
  destruct (addAuthorizationHeader_spec (JVal {[ "Accept" := "application/json" ]}) "t0k3n")
    as [(H' & Heq & Hauth & Hkeep & _) _].
  exists H'. split; [exact Heq|]. split; [exact Hauth|].
  rewrite (Hkeep {[ "Accept" := "application/json" ]} "Accept" eq_refl).
  - apply lookup_singleton_eq.
  - discriminate.
Defined.

(** *** authenticate *)



(** *** sendRequest *)

Lemma sendRequest_registers {Json} (parse : string -> option Json) options :
  exists k, @sendRequest _ _ (recording_JSON parse) options record_call = Normal k /\
    (forall e response, k (JVal e, response) = ([Callback (error_call e)], Normal tt)) /\
    (forall error r, is_nullish error = true -> 400 <= statusCode r ->
       k (error, JVal r) = ([Callback (error_call (new_Error (body r)))], Normal tt)) /\
    (forall error r j, is_nullish error = true -> statusCode r < 400 ->
       parse (body r) = Some j ->
       k (error, JVal r) =
         ([ParseAttempt (body r); Callback (success_call (set_body r (Parsed j)))],
          Normal tt)) /\
    (forall error r, is_nullish error = true -> statusCode r < 400 ->
       parse (body r) = None ->
       k (error, JVal r) =
         ([ParseAttempt (body r); Callback (success_call (set_body r (Text (body r))))],
          Normal tt)).
Proof.
  eexists. split; [reflexivity|]. split; [|split; [|split]].
  - intros e response. reflexivity.
  - intros error r Herr Hs. apply Z.leb_le in Hs.
    destruct (nullish_cases _ Herr) as [-> | ->]; cbn; rewrite Hs; reflexivity.
  - intros error r j Herr Hs Hp. apply Z.leb_gt in Hs.
    destruct (nullish_cases _ Herr) as [-> | ->]; cbn; rewrite Hs; cbn; rewrite Hp;
      reflexivity.
  - intros error r Herr Hs Hp. apply Z.leb_gt in Hs.
    destruct (nullish_cases _ Herr) as [-> | ->]; cbn; rewrite Hs; cbn; rewrite Hp;
      reflexivity.
Qed.

(** Whatever the transport reports within its contract, the callback of
    [sendRequest] is called once, with an error alone or with a response
    and no error; a transport error is passed on as it is. *)
Lemma sendRequest_one_call {Json} (parse : string -> option Json) options
    (report : TransportReport) :
  transport_contract report ->
  exists k call, @sendRequest _ _ (recording_JSON parse) options record_call = Normal k /\
    callbacks (calls_of (k report)) = [call] /\
    outcome_of (k report) = Normal tt /\
    ((exists e, call = error_call e) \/ (exists r, call = success_call r)) /\
    (forall e, fst report = JVal e -> call = error_call e).
Proof.
  intros Hc.
  destruct (sendRequest_registers parse options) as (k & Hk & Herr & Hbad & Hjson & Htext).
  exists k. destruct report as [error response].
  destruct (is_nullish error) eqn:Hn.
  - destruct Hc as [Hc | Hc]; simpl in Hc; [congruence|].
    destruct (present_cases _ Hc) as [r ->].
    destruct (Z_lt_le_dec (statusCode r) 400) as [Hs | Hs].
    + destruct (parse (body r)) as [j|] eqn:Hp.
      * eexists. split; [exact Hk|]. rewrite (Hjson error r j Hn Hs Hp). simpl.
        repeat split; eauto.
        intros e He. subst error. discriminate Hn.
      * eexists. split; [exact Hk|]. rewrite (Htext error r Hn Hs Hp). simpl.
        repeat split; eauto.
        intros e He. subst error. discriminate Hn.
    + eexists. split; [exact Hk|]. rewrite (Hbad error r Hn Hs). simpl.
      repeat split; eauto.
      intros e He. subst error. discriminate Hn.
  - destruct (present_cases _ Hn) as [e ->].
    eexists. split; [exact Hk|]. rewrite Herr. simpl.
    repeat split; eauto.
    intros e' He'. congruence.
Qed.

(** C3: when the transport gives a response whose status is 400 or more,
    the callback of [sendRequest] receives an [Error] whose message is the
    text of the body, and no response; and, for every report of the
    transport, the callback is called once, with an error alone or with a
    response and no error, never both. *)
Theorem sendRequest_error_status {Json} (parse : string -> option Json) options
    (error : Nullable JsError) (r : Response string) (report : TransportReport)
    (Herror : is_nullish error = true) (Hstatus : 400 <= statusCode r)
    (Hreport : transport_contract report) :
  exists k, @sendRequest _ _ (recording_JSON parse) options record_call = Normal k /\
    k (error, JVal r) = ([Callback (error_call (new_Error (body r)))], Normal tt) /\
    err_message (new_Error (body r)) = body r /\
    call_response (error_call (Json := Json) (new_Error (body r))) = JUndefined /\
    exists call, callbacks (calls_of (k report)) = [call] /\
      ((exists e, call = error_call e) \/ (exists r', call = success_call r')) /\
      ~ (delivers_error call /\ delivers_success call).
Proof.
  destruct (sendRequest_registers parse options) as (k & Hk & _ & Hbad & _).
  exists k. split; [exact Hk|]. split; [apply Hbad; assumption|].
  split; [reflexivity|]. split; [reflexivity|].
  destruct (sendRequest_one_call parse options report Hreport)
    as (k' & call & Hk' & Hcalls & _ & Hshape & _).
  rewrite Hk in Hk'. injection Hk' as <-.
  exists call. split; [exact Hcalls|]. split; [exact Hshape|].
  intros [He Hs]. unfold delivers_error, delivers_success in *.
  destruct Hshape as [[e ->] | [r' ->]]; simpl in *; discriminate.
Qed.

Lemma sendRequest_error_status_witness :
  exists k, @sendRequest _ _ (recording_JSON parse_literal) JUndefined record_call = Normal k /\
    k (JNull, JVal {| statusCode := 404; body := "missing" |}) =
      ([Callback (error_call (new_Error "missing"))], Normal tt).
Proof.
  destruct (sendRequest_error_status parse_literal JUndefined JNull
              {| statusCode := 404; body := "missing" |}
              (JNull, JVal {| statusCode := 200; body := "true" |}))
    as (k & Hk & Hrun & _).
  - reflexivity.
  - simpl. lia.
  - right. reflexivity.
  - exists k. split; [exact Hk | exact Hrun].
Defined.

(** C4: when the transport gives a response whose status is below 400,
    [sendRequest] makes one attempt to parse the body; if the text parses
    the callback receives the response with the parsed structure as its
    body, and if it does not the callback receives the response with the
    text as it was; in both cases without an error, and nothing is
    thrown. *)
Theorem sendRequest_success_status {Json} (parse : string -> option Json) options
    (error : Nullable JsError) (r : Response string)
    (Herror : is_nullish error = true) (Hstatus : statusCode r < 400) :
  exists k, @sendRequest _ _ (recording_JSON parse) options record_call = Normal k /\
    parse_attempts (calls_of (k (error, JVal r))) = [body r] /\
    outcome_of (k (error, JVal r)) = Normal tt /\
    callbacks (calls_of (k (error, JVal r))) =
      [success_call (set_body r (match parse (body r) with
                                 | Some j => Parsed j
                                 | None => Text (body r)
                                 end))].
Proof.
  destruct (sendRequest_registers parse options) as (k & Hk & _ & _ & Hjson & Htext).
  exists k. split; [exact Hk|].
  destruct (parse (body r)) as [j|] eqn:Hp.
  - rewrite (Hjson error r j Herror Hstatus Hp). repeat split; reflexivity.
  - rewrite (Htext error r Herror Hstatus Hp). repeat split; reflexivity.
Qed.

Lemma sendRequest_success_status_witness :
  exists k, @sendRequest _ _ (recording_JSON parse_literal) JUndefined record_call = Normal k /\
    callbacks (calls_of (k (JNull, JVal {| statusCode := 200; body := "not json" |}))) =
      [success_call {| statusCode := 200; body := Text "not json" |}].
Proof.
  destruct (sendRequest_success_status parse_literal JUndefined JNull
              {| statusCode := 200; body := "not json" |})
    as (k & Hk & _ & _ & Hcalls).
  - reflexivity.
  - simpl. lia.
  - exists k. split; [exact Hk | exact Hcalls].
Defined.

(** *** pipeRequest *)

Lemma completions_app (l l' : list Notification) :
  completions (l ++ l') = completions l ++ completions l'.
Proof.
  induction l as [|n l IH]; simpl; [reflexivity|].
  destruct n; simpl; rewrite IH; reflexivity.
Qed.

Lemma bind_normal {E A B} (m : Eff E A) (k : A -> Eff E B) (a : A) :
  outcome_of m = Normal a ->
  calls_of (bind m k) = calls_of m ++ calls_of (k a) /\
  outcome_of (bind m k) = outcome_of (k a).
Proof.
  destruct m as [calls c]. simpl. intros ->. unfold bind.
  destruct (k a); split; reflexivity.
Qed.

Lemma pipeRequest_wired (options : Options) (sink : Sink) :
  pipe options = JVal sink ->
  @pipeRequest _ started (JVal options) record_complete record_progress =
    (wired sink, Normal tt).
Proof. intros Hp. unfold pipeRequest. simpl. rewrite Hp. reflexivity. Qed.

(** When the call of the connection throws, [pipeRequest] ends with what
    it threw and nothing is attached. *)
Lemma pipeRequest_connection_throws {E} `{Connection} (options : Nullable Options)
    (callback : EventArg -> Eff E unit) (onProgress : ProgressSnapshot -> Eff E unit)
    (e : JsError) :
  request_stream options = Throw e ->
  pipeRequest options callback onProgress = ([], Throw e).
Proof. intros Hthrow. unfold pipeRequest. rewrite Hthrow. reflexivity. Qed.

(** When the connection returns the request and the options name no
    sink, the two listeners of the request stay attached. *)
Lemma pipeRequest_without_sink (options : Options) :
  is_nullish (pipe options) = true ->
  exists e,
    @pipeRequest _ started (JVal options) record_complete record_progress =
      ([ {| reg_emitter := TheRequest; reg_event := "progress";
            reg_listener := createFromNodeRequestProgress record_progress |};
         {| reg_emitter := TheRequest; reg_event := "error";
            reg_listener := plain record_complete |} ],
       Throw e) /\
    err_class e = "TypeError".
Proof.
  intros Hn. unfold pipeRequest. simpl.
  destruct (nullish_cases _ Hn) as [-> | ->]; eexists; split; reflexivity.
Qed.

Lemma progress_listener_silent (tr : Tracker) (arg : EventArg) :
  exists tr', outcome_of (createFromNodeRequestProgress record_progress tr arg) = Normal tr' /\
    completions (calls_of (createFromNodeRequestProgress record_progress tr arg)) = [].
Proof.
  destruct arg; simpl; eauto.
Qed.

Lemma plain_listener_records (tr : Tracker) (arg : EventArg) :
  plain record_complete tr arg = ([OnComplete arg], Normal tr).
Proof. reflexivity. Qed.

(** One emission over any wiring whose listeners return normally: the
    calls of [onComplete] are those of the listeners attached to the
    event, in order. *)
Lemma emit_completions (w : Wiring Notification) (records : Registration Notification -> bool)
    (em : Emission) :
  Forall (fun r => forall tr arg, exists tr',
            outcome_of (reg_listener r tr arg) = Normal tr' /\
            completions (calls_of (reg_listener r tr arg)) =
              if records r then [arg] else []) w ->
  forall tr, exists tr',
    outcome_of (emit w em tr) = Normal tr' /\
    completions (calls_of (emit w em tr)) =
      flat_map (fun r =>
                  if decide (em_emitter em = reg_emitter r /\ em_event em = reg_event r)
                  then (if records r then [em_arg em] else [])
                  else []) w.
Proof.
  induction 1 as [|r w Hr Hw IH]; intros tr.
  - exists tr. split; reflexivity.
  - cbn [emit flat_map]. case_decide.
    + destruct (Hr tr (em_arg em)) as (tr1 & Hout & Hcalls).
      destruct (IH tr1) as (tr2 & Hout2 & Hcalls2).
      destruct (bind_normal (reg_listener r tr (em_arg em))
                  (fun tr' => emit w em tr') tr1 Hout) as [Hc Ho].
      exists tr2. rewrite Hc, Ho, completions_app, Hcalls, Hcalls2.
      split; [exact Hout2 | reflexivity].
    + destruct (IH tr) as (tr2 & Hout2 & Hcalls2).
      exists tr2. split; [exact Hout2 | exact Hcalls2].
Qed.

Lemma emit_wired (sink : Sink) (em : Emission) (tr : Tracker) :
  exists tr', outcome_of (emit (wired sink) em tr) = Normal tr' /\
    completions (calls_of (emit (wired sink) em tr)) =
      if terminal sink em then [em_arg em] else [].
Proof.
  destruct (emit_completions (wired sink)
              (fun r => negb (String.eqb (reg_event r) "progress")) em) with (tr := tr)
    as (tr' & Hout & Hcalls).
  - unfold wired.
    repeat (apply List.Forall_cons; [|]); [ .. | apply List.Forall_nil];
      intros tr0 arg; cbn [reg_listener reg_event String.eqb negb];
      first [ apply progress_listener_silent
            | exists tr0; rewrite plain_listener_records; split; reflexivity ].
  - exists tr'. split; [exact Hout|]. rewrite Hcalls. clear Hout Hcalls.
    destruct em as [emitter event arg]. unfold terminal, wired.
    cbn [flat_map reg_emitter reg_event em_emitter em_event em_arg String.eqb negb].
    rewrite !bool_decide_decide.
    repeat case_decide; cbn [orb app]; try reflexivity;
      repeat match goal with H : _ /\ _ |- _ => destruct H end; congruence.
Qed.

Lemma transfer_wired (sink : Sink) (ems : list Emission) :
  forall tr, exists tr',
    outcome_of (transfer (wired sink) ems tr) = Normal tr' /\
    completions (calls_of (transfer (wired sink) ems tr)) =
      map em_arg (List.filter (terminal sink) ems).
Proof.
  induction ems as [|em ems IH]; intros tr.
  - exists tr. split; reflexivity.
  - destruct (emit_wired sink em tr) as (tr1 & Hout & Hcalls).
    destruct (IH tr1) as (tr2 & Hout2 & Hcalls2).
    cbn [transfer].
    destruct (bind_normal (emit (wired sink) em tr)
                (fun tr' => transfer (wired sink) ems tr') tr1 Hout) as [Hc Ho].
    exists tr2. rewrite Hc, Ho, completions_app, Hcalls, Hcalls2.
    split; [exact Hout2|].
    cbn [List.filter]. destruct (terminal sink em); reflexivity.
Qed.

(** C1, as the code has it: when the options name a sink, [onComplete] is
    called once for each [error] event of the request, once for each
    [error] event of the sink and once for each [close] event of the sink,
    in the order of these events and with the argument of the event; no
    other event reaches it, and nothing keeps a later event from reaching
    it. A transfer with one such event therefore completes once. *)
Theorem pipeRequest_completions (options : Options) (sink : Sink) (ems : list Emission)
    (Hsink : pipe options = JVal sink) :
  completions_of (JVal options) ems =
    Normal (map em_arg (List.filter (terminal sink) ems)) /\
  (forall em, List.filter (terminal sink) ems = [em] ->
     completions_of (JVal options) ems = Normal [em_arg em]).
Proof.
  assert (Hall : completions_of (JVal options) ems =
                   Normal (map em_arg (List.filter (terminal sink) ems))).
  { unfold completions_of. rewrite (pipeRequest_wired options sink Hsink).
    destruct (transfer_wired sink ems fresh_tracker) as (tr' & _ & Hcalls).
    rewrite Hcalls. reflexivity. }
  split; [exact Hall|].
  intros em Hone. rewrite Hall, Hone. reflexivity.
Qed.

Lemma pipeRequest_completions_witness :
  completions_of (JVal download)
    [request_progress {| at_time := 0; transferred := 0; total := Some 1000 |};
     sink_close "image.img"] = Normal [NoArg].
Proof.
  exact (proj1 (pipeRequest_completions download "image.img"
                  [request_progress {| at_time := 0; transferred := 0; total := Some 1000 |};
                   sink_close "image.img"] eq_refl)).
Defined.

(** C1, as the spec words it, fails: when the request and the sink both
    report an error, [onComplete] is not called exactly once. *)
Lemma pipeRequest_two_errors :
  ~ (exists arg,
       completions_of (JVal download)
         [request_error (new_Error "socket hang up");
          sink_error "image.img" (new_Error "disk full")] = Normal [arg]).
Proof.
  intros [arg H]. vm_compute in H. discriminate H.
Qed.

(** After an error, the close of the sink reaches [onComplete] as well,
    this time without an error. *)
Lemma pipeRequest_error_then_close :
  completions_of (JVal download)
    [sink_error "image.img" (new_Error "disk full"); sink_close "image.img"] =
  Normal [ErrorArg (new_Error "disk full"); NoArg].
Proof. vm_compute. reflexivity. Qed.

(** *** The entry points together *)





(** *** The progress tracker *)

(** A tracker that has seen no event reports speed 0 and no eta. *)
Lemma first_sample_has_no_speed (ev : RawTransferEvent) :
  snap_speed (snd (track fresh_tracker ev)) = 0%Q /\
  snap_eta (snd (track fresh_tracker ev)) = None.
Proof.
  unfold track, eta_of. simpl. split; [reflexivity|].
  destruct (total ev); reflexivity.
Qed.

(** C8: for a transfer of total size 1000 with the samples transferred 0
    at 0 s and transferred 500 at 1 s, the first snapshot reports speed 0
    and the second reports percentage 50, the floor of 100 x 500 / 1000,
    speed 500 bytes per second and an eta of 1 second. *)
Theorem tracker_two_samples :
  exists first second,
    snapshots fresh_tracker
      [ {| at_time := 0; transferred := 0; total := Some 1000 |};
        {| at_time := 1; transferred := 500; total := Some 1000 |} ] = [first; second] /\
    snap_speed first = 0%Q /\
    snap_percentage second = Some 50 /\
    snap_percentage second = Some (100 * 500 / 1000) /\
    snap_speed second = 500%Q /\
    snap_eta second = Some 1%Q.
Proof.
  do 2 eexists. split; [reflexivity|]. repeat split; reflexivity.
Qed.

End ServerUtilsFacts.

(** ** Properties of build/models/device.js *)

Module DeviceFacts.
Import Device.


(** C9: when the query of [get] resolves with no device, the callback is
    called once, whatever it then does, and what it receives is an error
    and no device; the error is the [ReferenceError] of the identifier
    [id], which nothing binds, and not the [NotFound] error for
    ["device " + deviceId]. *)
Theorem get_missing_device `{ErrorMessages} (deviceId : string) :
  exists k, get deviceId record = Normal k /\
    k (Resolved JNull) = ([failure (new_ReferenceError "id")], Normal tt) /\
    k (Resolved JUndefined) = ([failure (new_ReferenceError "id")], Normal tt) /\
    err_class (new_ReferenceError "id") = "ReferenceError" /\
    err_message (new_ReferenceError "id") = "id is not defined" /\
    new_ReferenceError "id" <> errors_NotFound ("device " +:+ deviceId) /\
    (forall (behaviour : Call Device -> Completion unit) (device : Nullable Device),
       is_nullish device = true ->
       exists k' call e,
         get deviceId (callback_that behaviour) = Normal k' /\
         calls_of (k' (Resolved device)) = [call] /\
         cb_error call = JVal e /\
         cb_result call = JUndefined /\
         err_class e = "ReferenceError" /\
         err_message e = "id is not defined" /\
         err_class e <> "NotFound" /\
         e <> errors_NotFound ("device " +:+ deviceId)).
Proof.
  eexists. split; [reflexivity|].
  do 5 (split; [first [reflexivity | intros Heq; discriminate Heq]|]).
  intros behaviour device Hn.
  eexists.
  exists {| cb_error := JVal {| err_class := "ReferenceError";
                               err_message := "id is not defined" |};
            cb_result := JUndefined |},
         {| err_class := "ReferenceError"; err_message := "id is not defined" |}.
  split; [reflexivity|].
  split.
  - destruct device as [| |d]; [| |discriminate Hn]; cbn; unfold callback_that;
      match goal with
      | |- context [behaviour ?x] => destruct (behaviour x); reflexivity
      end.
  - repeat split; try reflexivity; intros Heq; discriminate Heq.
Qed.

Lemma get_missing_device_witness :
  exists k call e,
    get (H := sample_messages) "51"
      (callback_that (fun _ => Throw (new_Error "boom"))) = Normal k /\
    calls_of (k (Resolved JNull)) = [call] /\
    cb_error call = JVal e /\
    err_class e = "ReferenceError".
Proof.
  destruct (@get_missing_device sample_messages "51")
    as (_ & _ & _ & _ & _ & _ & _ & Hany).
  destruct (Hany (fun _ => Throw (new_Error "boom")) JNull eq_refl)
    as (k & call & e & Hk & Hcalls & Herr & _ & Hclass & _).
  exists k, call, e. repeat split; assumption.
Defined.

(** A device whose application is expanded gets its name; one without an
    application makes the handler fault, and the fault reaches the
    callback through the catch handler. *)
Example getAllByApplication_names_devices :
  exists k, getAllByApplication (H := sample_messages) "42" record = Normal k /\
    k (Resolved (JVal [raspberry])) =
      ([success (JVal [set_application_name raspberry (JVal "thermostat")])], Normal tt) /\
    k (Resolved (JVal [{| uuid := "00"; name := "attic"; application := JVal [];
                          application_name := JUndefined |}])) =
      ([failure (new_TypeError "Cannot read property 'app_name' of undefined")], Normal tt).
Proof. eexists. split; [reflexivity|]. split; reflexivity. Qed.




End DeviceFacts.

(** ** Further properties of build/server-utils.js *)

Module ServerUtilsExtras.
Import ServerUtils ServerUtilsFacts.

(** X1: a second call of [addAuthorizationHeader] on the headers the first
    returned replaces the token: the result is what one call with the
    second token gives, so there is one [Authorization] entry and it holds
    the last token. *)
Theorem addAuthorizationHeader_last_token (H : Nullable Headers) (T1 T2 : string) :
  exists H1 H2 : Headers,
    addAuthorizationHeader H (JVal T1) = Normal H1 /\
    addAuthorizationHeader (JVal H1) (JVal T2) = Normal H2 /\
    addAuthorizationHeader H (JVal T2) = Normal H2 /\
    H2 !! "Authorization" = Some ("Bearer " +:+ T2) /\
    (forall key, key <> "Authorization" -> H2 !! key = H1 !! key).
Proof.
  do 2 eexists. split; [reflexivity|]. split; [reflexivity|].
  simpl. split; [|split].
  - f_equal. symmetry. apply insert_insert_eq.
  - apply lookup_insert_eq.
  - intros key Hkey. apply lookup_insert_ne. congruence.
Qed.

Lemma addAuthorizationHeader_last_token_witness :
  exists H2 : Headers,
    addAuthorizationHeader
      (JVal (<["Authorization" := "Bearer old"]> {[ "Accept" := "application/json" ]}))
      (JVal "new") = Normal H2 /\
    H2 !! "Authorization" = Some "Bearer new" /\
    H2 !! "Accept" = Some "application/json".
Proof.
  destruct (addAuthorizationHeader_last_token
              (JVal {[ "Accept" := "application/json" ]}) "old" "new")
    as (H1 & H2 & Hfirst & Hsecond & _ & Hauth & Hkeep).
  exists H2. injection Hfirst as <-.
  split; [exact Hsecond|]. split; [exact Hauth|].
  rewrite (Hkeep "Accept") by discriminate.
  etransitivity; [apply lookup_insert_ne; discriminate|].
  apply lookup_singleton_eq.
Defined.

(** X2: whatever the token store reports, the continuation of
    [authenticate] throws nothing (the "Missing token" of
    [addAuthorizationHeader] cannot surface), and the options it leaves
    differ from the ones it was given at most in the [Authorization]
    header: the url, the method, the body, the sink and every other header
    are as they were. *)
Theorem authenticate_touches_only_authorization (options : Options)
    (report : Nullable JsError * Nullable string) :
  exists k options',
    authenticate (JVal options) record_error = Normal k /\
    outcome_of (k report) = Normal options' /\
    url options' = url options /\
    method options' = method options /\
    request_body options' = request_body options /\
    pipe options' = pipe options /\
    (forall key, key <> "Authorization" -> header_of options' key = header_of options key) /\
    (is_nullish (fst report) = false \/ is_nullish (snd report) = true ->
     options' = options).
Proof.
  destruct report as [error token].
  destruct error as [| |e]; destruct token as [| |t]; do 2 eexists;
    (split; [reflexivity|]); (split; [reflexivity|]);
    repeat split; try reflexivity;
    lazymatch goal with
    | |- _ \/ _ -> _ =>
        intros [Hn | Hn]; simpl in Hn; first [discriminate Hn | reflexivity]
    | |- forall key, _ =>
        intros key Hkey; unfold header_of; simpl; try reflexivity;
        (etransitivity; [apply lookup_insert_ne; congruence|]);
        destruct (headers options); try reflexivity; apply lookup_empty
    end.
Qed.

Lemma authenticate_touches_only_authorization_witness :
  exists k options',
    authenticate (JVal download) record_error = Normal k /\
    outcome_of (k (JVal (new_Error "EACCES"), JVal "t0k3n")) = Normal options' /\
    options' = download.
Proof.
  destruct (authenticate_touches_only_authorization download
              (JVal (new_Error "EACCES"), JVal "t0k3n"))
    as (k & options' & Hk & Hout & _ & _ & _ & _ & _ & Hsame).
  exists k, options'. split; [exact Hk|]. split; [exact Hout|].
  apply Hsame. left. reflexivity.
Defined.

(** X3: when the transport reports an error, or a response whose status
    is 400 or more, [sendRequest] never parses the body: the callback is
    called once, with an error and no response. An error of the transport
    comes first: it is the one passed on, whatever response comes with
    it. *)
Theorem sendRequest_failure_skips_parse {Json} (parse : string -> option Json) options
    (report : TransportReport)
    (Hfails : is_nullish (fst report) = false \/
              (exists r, snd report = JVal r /\ 400 <= statusCode r)) :
  exists k e, @sendRequest _ _ (recording_JSON parse) options record_call = Normal k /\
    k report = ([Callback (error_call e)], Normal tt) /\
    parse_attempts (calls_of (k report)) = [] /\
    (forall e', fst report = JVal e' -> e = e').
Proof.
  destruct (sendRequest_registers parse options) as (k & Hk & Herr & Hbad & _).
  exists k. destruct report as [error response]. simpl in Hfails.
  destruct (is_nullish error) eqn:Hn.
  - destruct Hfails as [Hf | (r & -> & Hs)]; [discriminate Hf|].
    exists (new_Error (body r)). split; [exact Hk|].
    rewrite (Hbad error r Hn Hs). repeat split.
    intros e' He'. simpl in He'. subst error. discriminate Hn.
  - destruct (present_cases _ Hn) as [e ->].
    exists e. split; [exact Hk|]. rewrite Herr. repeat split.
    intros e' He'. simpl in He'. congruence.
Qed.

Lemma sendRequest_failure_skips_parse_witness :
  exists k, @sendRequest _ _ (recording_JSON parse_literal) JUndefined record_call = Normal k /\
    k (JVal (new_Error "ETIMEDOUT"), JVal {| statusCode := 200; body := "true" |}) =
      ([Callback (error_call (new_Error "ETIMEDOUT"))], Normal tt).
Proof.
  destruct (sendRequest_failure_skips_parse parse_literal JUndefined
              (JVal (new_Error "ETIMEDOUT"), JVal {| statusCode := 200; body := "true" |}))
    as (k & e & Hk & Hrun & _ & He).
  - left. reflexivity.
  - exists k. split; [exact Hk|].
    rewrite Hrun. rewrite (He (new_Error "ETIMEDOUT") eq_refl). reflexivity.
Defined.

(** X4: when the transport reports neither an error nor a response, the
    continuation of [sendRequest] faults on [response.statusCode]: a
    [TypeError] escapes it, the callback is not called and nothing is
    parsed. *)
Theorem sendRequest_without_report {Json} (parse : string -> option Json) options
    (error : Nullable JsError) (response : Nullable (Response string))
    (Herror : is_nullish error = true) (Hresponse : is_nullish response = true) :
  exists k e, @sendRequest _ _ (recording_JSON parse) options record_call = Normal k /\
    k (error, response) = ([], Throw e) /\
    err_class e = "TypeError".
Proof.
  destruct (nullish_cases _ Herror) as [-> | ->];
    destruct (nullish_cases _ Hresponse) as [-> | ->];
    do 2 eexists; (split; [reflexivity|]); split; reflexivity.
Qed.

Lemma sendRequest_without_report_witness :
  exists k e, @sendRequest _ _ (recording_JSON parse_literal) JUndefined record_call = Normal k /\
    k (JNull, JUndefined) = ([], Throw e) /\ err_class e = "TypeError".
Proof.
  exact (sendRequest_without_report parse_literal JUndefined JNull JUndefined eq_refl eq_refl).
Defined.

End ServerUtilsExtras.

(** ** Further properties of build/models/device.js *)

Module DeviceExtras.
Import Device DeviceFacts.

(** *** Shared lemmas *)

Lemma first_app_name_expanded (device : Device) :
  (expanded device /\
   exists n, first_app_name device = Normal n /\
             named device (set_application_name device n)) \/
  (~ expanded device /\
   exists e, first_app_name device = Throw e /\ err_class e = "TypeError").
Proof.
  unfold expanded, named, first_app_name.
  destruct (application device) as [| |[|app apps]] eqn:Happ.
  - right. split; [intros (a & l & Heq); discriminate Heq|]. eexists. split; reflexivity.
  - right. split; [intros (a & l & Heq); discriminate Heq|]. eexists. split; reflexivity.
  - right. split; [intros (a & l & Heq); discriminate Heq|]. eexists. split; reflexivity.
  - left. split; [eauto|]. eexists. split; [reflexivity|]. simpl.
    rewrite Happ. repeat split; reflexivity.
Qed.

Lemma map_names_result {E} (l : list Device) :
  let f := fun device : Device =>
             n <- lift (E := E) (first_app_name device) ;;
             ret (set_application_name device n) in
  (Forall expanded l /\ exists l', map_list f l = ([], Normal l') /\ Forall2 named l l') \/
  (Exists (fun d => ~ expanded d) l /\
   exists e, map_list f l = ([], Throw e) /\ err_class e = "TypeError").
Proof.
  intros f. induction l as [|d l IH].
  - left. split; [constructor|]. exists []. split; [reflexivity | constructor].
  - cbn [map_list]. unfold f at 1 3.
    destruct (first_app_name_expanded d) as [(Hd & n & Hn & Hnamed) | (Hd & e & He & Hclass)].
    + rewrite Hn.
      destruct IH as [(Hall & l' & Hl' & Hrel) | (Hex & e & He & Hclass)].
      * left. split; [constructor; assumption|].
        exists (set_application_name d n :: l').
        unfold lift, bind, ret. rewrite Hl'. simpl.
        split; [reflexivity | constructor; assumption].
      * right. split; [apply Exists_cons_tl; exact Hex|].
        exists e. unfold lift, bind, ret. rewrite He. split; [reflexivity | exact Hclass].
    + right. split; [apply Exists_cons_hd; exact Hd|].
      exists e. rewrite He. split; [reflexivity | exact Hclass].
Qed.

(** *** remove, rename, note *)



(** *** get *)



(** *** getAll, getAllByApplication *)

(** X7: when the query of [getAllByApplication] resolves with a list that
    is not empty, the outcome is all or nothing. If every device has its
    application expanded, the callback receives no error and as many
    devices, in the same order, each with [application_name] set from its
    first application and nothing else changed. If one device has not, the
    callback receives a [TypeError] and no list. *)
Theorem getAllByApplication_all_or_nothing `{ErrorMessages} (applicationId : string)
    (d : Device) (ds : list Device) :
  exists k call,
    getAllByApplication applicationId record = Normal k /\
    k (Resolved (JVal (d :: ds))) = ([call], Normal tt) /\
    (Forall expanded (d :: ds) ->
       exists l', cb_error call = JNull /\ cb_result call = JVal l' /\
                  Forall2 named (d :: ds) l') /\
    (Exists (fun device => ~ expanded device) (d :: ds) ->
       exists e, cb_error call = JVal e /\ cb_result call = JUndefined /\
                 err_class e = "TypeError").
Proof.
  destruct (map_names_result (E := Call (list Device)) (d :: ds))
    as [(Hall & l' & Hl' & Hrel) | (Hex & e & He & Hclass)]; cbv zeta in *.
  - eexists. exists (success (JVal l')). split; [reflexivity|].
    cbn -[map_list bind lift ret]. rewrite Hl'.
    split; [reflexivity|]. split.
    + intros _. exists l'. repeat split. exact Hrel.
    + intros Hbad. exfalso. apply List.Exists_exists in Hbad as (x & Hin & Hx).
      apply Hx. rewrite List.Forall_forall in Hall. apply Hall. exact Hin.
  - eexists. exists (failure e). split; [reflexivity|].
    cbn -[map_list bind lift ret]. rewrite He.
    split; [reflexivity|]. split.
    + intros Hall. exfalso. apply List.Exists_exists in Hex as (x & Hin & Hx).
      apply Hx. rewrite List.Forall_forall in Hall. apply Hall. exact Hin.
    + intros _. exists e. repeat split. exact Hclass.
Qed.

Lemma getAllByApplication_all_or_nothing_witness :
  exists k call e,
    getAllByApplication (H := sample_messages) "42" record = Normal k /\
    k (Resolved (JVal [raspberry;
                       {| uuid := "00"; name := "attic"; application := JUndefined;
                          application_name := JUndefined |}])) =
      ([call], Normal tt) /\
    cb_error call = JVal e /\
    cb_result call = JUndefined /\
    err_class e = "TypeError".
Proof.
  destruct (@getAllByApplication_all_or_nothing sample_messages "42" raspberry
              [{| uuid := "00"; name := "attic"; application := JUndefined;
                  application_name := JUndefined |}])
    as (k & call & Hk & Hrun & _ & Hbad).
  destruct Hbad as (e & Herr & Hres & Hclass).
  - apply Exists_cons_tl. apply Exists_cons_hd.
    intros (app & apps & Happ). discriminate Happ.
  - exists k, call, e. repeat split; assumption.
Defined.



(** *** isValidUUID *)






(** *** The device types *)

Lemma index_from_spec (l : list string) (value : string) :
  forall i, 0 <= i ->
    (In value l /\ i <= index_from l value i) \/
    (~ In value l /\ index_from l value i = -1).
Proof.
  induction l as [|x l IH]; intros i Hi; simpl.
  - right. split; [intros [] | reflexivity].
  - destruct (String.eqb x value) eqn:Heq.
    + apply String.eqb_eq in Heq. left. split; [left; exact Heq | lia].
    + apply String.eqb_neq in Heq.
      destruct (IH (i + 1)) as [[Hin Hle] | [Hnin Hno]]; [lia | |].
      * left. split; [right; exact Hin | lia].
      * right. split; [intros [Hx | Hin]; contradiction | exact Hno].
Qed.

Lemma indexOf_found (array : Nullable (list string)) (value : string) :
  negb (indexOf array value =? -1) = true <->
  exists l, array = JVal l /\ In value l.
Proof.
  unfold indexOf. destruct array as [| |l].
  - split; [intros Hn; discriminate Hn | intros (l & Hl & _); discriminate Hl].
  - split; [intros Hn; discriminate Hn | intros (l & Hl & _); discriminate Hl].
  - destruct (index_from_spec l value 0) as [[Hin Hle] | [Hnin Hno]]; [lia | |].
    + split; [intros _; eauto|]. intros _.
      apply negb_true_iff. apply Z.eqb_neq. lia.
    + rewrite Hno. split; [intros Hn; discriminate Hn|].
      intros (l' & [= <-] & Hin). contradiction.
Qed.

Lemma indexOf_missing (array : Nullable (list string)) (value : string) :
  negb (indexOf array value =? -1) = false <->
  ~ exists l, array = JVal l /\ In value l.
Proof.
  rewrite <- indexOf_found. destruct (negb (indexOf array value =? -1)); split;
    try discriminate; try reflexivity; intros Hn; exfalso; apply Hn; reflexivity.
Qed.

Lemma first_named_range (entries : list (string * DeviceType)) (device : string) :
  In (first_named entries device) (map fst entries) \/
  first_named entries device = "Unknown".
Proof.
  induction entries as [|[key value] rest IH]; simpl.
  - right. reflexivity.
  - destruct (negb (indexOf (names value) device =? -1)).
    + left. left. reflexivity.
    + destruct IH as [Hin | Hun]; [left; right; exact Hin | right; exact Hun].
Qed.

Lemma first_named_first (pre post : list (string * DeviceType)) (key : string)
    (value : DeviceType) (device : string) :
  Forall (fun entry => ~ exists l, names (snd entry) = JVal l /\ In device l) pre ->
  (exists l, names value = JVal l /\ In device l) ->
  first_named (pre ++ (key, value) :: post) device = key.
Proof.
  intros Hpre Hhere. induction Hpre as [|[k v] pre Hno Hpre IH]; simpl.
  - apply indexOf_found in Hhere. rewrite Hhere. reflexivity.
  - simpl in Hno. apply indexOf_missing in Hno. rewrite Hno. exact IH.
Qed.

Lemma first_named_none (entries : list (string * DeviceType)) (device : string) :
  Forall (fun entry => ~ exists l, names (snd entry) = JVal l /\ In device l) entries ->
  first_named entries device = "Unknown".
Proof.
  induction 1 as [|[k v] rest Hno Hrest IH]; simpl; [reflexivity|].
  simpl in Hno. apply indexOf_missing in Hno. rewrite Hno. exact IH.
Qed.

Lemma entry_of_found (entries : list (string * DeviceType)) (key : string)
    (value : DeviceType) :
  entry_of entries key = JVal value -> In (key, value) entries.
Proof.
  induction entries as [|[k v] rest IH]; simpl; [intros Hn; discriminate Hn|].
  destruct (String.eqb k key) eqn:Heq.
  - apply String.eqb_eq in Heq. intros [= <-]. left. congruence.
  - intros Hrest. right. exact (IH Hrest).
Qed.

Lemma entry_of_missing (entries : list (string * DeviceType)) (key : string) :
  ~ In key (map fst entries) -> entry_of entries key = JUndefined.
Proof.
  induction entries as [|[k v] rest IH]; simpl; [reflexivity|].
  intros Hn. destruct (String.eqb k key) eqn:Heq.
  - apply String.eqb_eq in Heq. exfalso. apply Hn. left. exact Heq.
  - apply IH. intros Hin. apply Hn. right. exact Hin.
Qed.

Lemma not_alias_everywhere `{DeviceData} (device : string) :
  ~ is_alias device ->
  Forall (fun entry => ~ exists l, names (snd entry) = JVal l /\ In device l) DEVICES.
Proof.
  intros Hno. apply List.Forall_forall. intros [k v] Hin (l & Hl & Hd).
  apply Hno. exists k, v, l. auto.
Qed.

Lemma supported_is_fixed `{DeviceData} (device : string) :
  In device getSupportedDeviceTypes -> getDisplayName device = device.
Proof.
  intros Hin. unfold getDisplayName.
  assert (Hf : negb (indexOf (JVal getSupportedDeviceTypes) device =? -1) = true)
    by (apply indexOf_found; eauto).
  rewrite Hf. reflexivity.
Qed.

Lemma unsupported_is_searched `{DeviceData} (device : string) :
  ~ In device getSupportedDeviceTypes ->
  getDisplayName device = first_named DEVICES device.
Proof.
  intros Hnin. unfold getDisplayName.
  assert (Hf : negb (indexOf (JVal getSupportedDeviceTypes) device =? -1) = false).
  { apply indexOf_missing. intros (l & [= <-] & Hin). contradiction. }
  rewrite Hf. reflexivity.
Qed.

Lemma supported_dec `{DeviceData} (device : string) :
  In device getSupportedDeviceTypes \/ ~ In device getSupportedDeviceTypes.
Proof.
  destruct (in_dec String.string_dec device getSupportedDeviceTypes); auto.
Qed.

Lemma getDisplayName_range_cases `{DeviceData} (device : string) :
  In (getDisplayName device) getSupportedDeviceTypes \/
  getDisplayName device = "Unknown".
Proof.
  destruct (supported_dec device) as [Hin | Hnin].
  - left. rewrite (supported_is_fixed device Hin). exact Hin.
  - rewrite (unsupported_is_searched device Hnin). apply first_named_range.
Qed.

(** X11: [getDisplayName] returns a supported device type or "Unknown".
    A supported type is returned as it is, also when another type lists
    it among its names; a name that is neither a supported type nor
    listed by any type gives "Unknown". *)
Theorem getDisplayName_range `{DeviceData} (device : string) :
  (In (getDisplayName device) getSupportedDeviceTypes \/
   getDisplayName device = "Unknown") /\
  (In device getSupportedDeviceTypes -> getDisplayName device = device) /\
  (~ In device getSupportedDeviceTypes -> ~ is_alias device ->
   getDisplayName device = "Unknown").
Proof.
  split; [|split].
  - destruct (supported_dec device) as [Hin | Hnin].
    + left. rewrite (supported_is_fixed device Hin). exact Hin.
    + rewrite (unsupported_is_searched device Hnin). apply first_named_range.
  - apply supported_is_fixed.
  - intros Hnin Hno. rewrite (unsupported_is_searched device Hnin).
    apply first_named_none. apply not_alias_everywhere. exact Hno.
Qed.

Lemma getDisplayName_range_witness :
  @getDisplayName sample_devices "BeagleBone Black" = "BeagleBone Black" /\
  @getDisplayName sample_devices "arduino" = "Unknown".
Proof.
  destruct (@getDisplayName_range sample_devices "BeagleBone Black") as (_ & Hfix & _).
  destruct (@getDisplayName_range sample_devices "arduino") as (_ & _ & Hun).
  split.
  - apply Hfix. right. left. reflexivity.
  - apply Hun.
    + intros Hin. vm_compute in Hin. intuition discriminate.
    + intros (k & v & l & Hin & Hl & Hd). vm_compute in Hin.
      destruct Hin as [[= <- <-] | [[= <- <-] | [[= <- <-] | []]]];
        simpl in Hl; try discriminate Hl; injection Hl as <-;
        vm_compute in Hd; intuition discriminate.
Defined.

(** X12: a name that is not itself a supported type is displayed as the
    first type, in the order of the table, that lists it among its
    names. *)
Theorem getDisplayName_first_alias `{DeviceData} (device key : string)
    (value : DeviceType) (pre post : list (string * DeviceType))
    (Hunsupported : ~ In device getSupportedDeviceTypes)
    (Htable : DEVICES = pre ++ (key, value) :: post)
    (Hbefore : Forall (fun entry => ~ exists l, names (snd entry) = JVal l /\ In device l) pre)
    (Hhere : exists l, names value = JVal l /\ In device l) :
  getDisplayName device = key /\ In key getSupportedDeviceTypes.
Proof.
  rewrite (unsupported_is_searched device Hunsupported). rewrite Htable.
  split; [apply first_named_first; assumption|].
  unfold getSupportedDeviceTypes. rewrite Htable, map_app.
  apply in_or_app. right. left. reflexivity.
Qed.

Lemma getDisplayName_first_alias_witness :
  @getDisplayName sample_devices "bbb" = "BeagleBone Black".
Proof.
  refine (proj1 (@getDisplayName_first_alias sample_devices "bbb" "BeagleBone Black"
                   {| names := JVal ["beaglebone-black"; "bbb"];
                      slug := JVal "beaglebone-black" |}
                   [("Raspberry Pi",
                     {| names := JVal ["raspberry-pi"; "raspberrypi"; "rpi"];
                        slug := JVal "raspberry-pi" |})]
                   [("Prototype", {| names := JUndefined; slug := JVal "" |})]
                   _ eq_refl _ _)).
  - intros Hin. vm_compute in Hin. intuition discriminate.
  - constructor; [|constructor]. intros (l & [= <-] & Hd).
    vm_compute in Hd. intuition discriminate.
  - eexists. split; [reflexivity|]. right. left. reflexivity.
Defined.

(** X13: [getDisplayName] applied to its own result gives that result
    again, provided "Unknown" is a supported type or no type lists
    "Unknown" among its names. *)
Theorem getDisplayName_idempotent `{DeviceData} (device : string)
    (Hunknown : In "Unknown" getSupportedDeviceTypes \/ ~ is_alias "Unknown") :
  getDisplayName (getDisplayName device) = getDisplayName device.
Proof.
  destruct (getDisplayName_range_cases device) as [Hin | Hun].
  - apply supported_is_fixed. exact Hin.
  - rewrite Hun. destruct (supported_dec "Unknown") as [Hin | Hnin].
    + apply supported_is_fixed. exact Hin.
    + destruct Hunknown as [Hin | Hno]; [contradiction|].
      rewrite (unsupported_is_searched "Unknown" Hnin).
      apply first_named_none. apply not_alias_everywhere. exact Hno.
Qed.

Lemma getDisplayName_idempotent_witness :
  @getDisplayName sample_devices (@getDisplayName sample_devices "rpi") =
  @getDisplayName sample_devices "rpi".
Proof.
  apply (@getDisplayName_idempotent sample_devices "rpi").
  right. intros (k & v & l & Hin & Hl & Hd). vm_compute in Hin.
  destruct Hin as [[= <- <-] | [[= <- <-] | [[= <- <-] | []]]];
    simpl in Hl; try discriminate Hl; injection Hl as <-;
    vm_compute in Hd; intuition discriminate.
Defined.

(** Without that proviso the second application can differ: here "x" is
    displayed as "Unknown", and "Unknown" as the type that lists it. *)
Example getDisplayName_twice_differs :
  let table := {| DEVICES := [("Generic", {| names := JVal ["Unknown"]; slug := JUndefined |})] |} in
  @getDisplayName table "x" = "Unknown" /\
  @getDisplayName table (@getDisplayName table "x") = "Generic".
Proof. split; reflexivity. Qed.

(** X14: [getDeviceSlug] never returns the empty string. It returns
    "unknown" or the slug of the entry of the display name; when the
    display name has no entry it returns "unknown". *)
Theorem getDeviceSlug_range `{DeviceData} (device : string) :
  getDeviceSlug device <> "" /\
  (getDeviceSlug device = "unknown" \/
   exists value, In (getDisplayName device, value) DEVICES /\
                 slug value = JVal (getDeviceSlug device)) /\
  (~ In (getDisplayName device) getSupportedDeviceTypes ->
   getDeviceSlug device = "unknown").
Proof.
  unfold getDeviceSlug. cbv zeta.
  destruct (entry_of DEVICES (getDisplayName device)) as [| |value] eqn:He.
  - split; [discriminate|]. split; [left; reflexivity | reflexivity].
  - split; [discriminate|]. split; [left; reflexivity | reflexivity].
  - apply entry_of_found in He as Hin.
    destruct (slug value) as [| |s] eqn:Hs; simpl.
    + split; [discriminate|]. split; [left; reflexivity|].
      intros Hn. reflexivity.
    + split; [discriminate|]. split; [left; reflexivity|].
      intros Hn. reflexivity.
    + destruct (String.eqb s "") eqn:Hempty.
      * split; [discriminate|]. split; [left; reflexivity|]. intros _. reflexivity.
      * apply String.eqb_neq in Hempty. split; [exact Hempty|].
        split; [right; exists value; split; [exact Hin | exact Hs]|].
        intros Hn. exfalso. apply Hn. unfold getSupportedDeviceTypes.
        apply (in_map fst) in Hin. exact Hin.
Qed.

Lemma getDeviceSlug_range_witness :
  @getDeviceSlug sample_devices "arduino" = "unknown".
Proof.
  destruct (@getDeviceSlug_range sample_devices "arduino") as (_ & _ & Hun).
  apply Hun. intros Hin. vm_compute in Hin. intuition discriminate.
Defined.

(** X15: a name and its display name have the same slug, provided
    "Unknown" is a supported type or no type lists "Unknown" among its
    names. *)
Theorem getDeviceSlug_of_display_name `{DeviceData} (device : string)
    (Hunknown : In "Unknown" getSupportedDeviceTypes \/ ~ is_alias "Unknown") :
  getDeviceSlug (getDisplayName device) = getDeviceSlug device.
Proof.
  unfold getDeviceSlug. cbv zeta.
  destruct (getDisplayName_range_cases device) as [Hin | Hun].
  - rewrite (supported_is_fixed _ Hin). reflexivity.
  - rewrite Hun. destruct (supported_dec "Unknown") as [Hin | Hnin].
    + rewrite (supported_is_fixed _ Hin). reflexivity.
    + destruct Hunknown as [Hin | Hno]; [contradiction|].
      rewrite (unsupported_is_searched "Unknown" Hnin).
      rewrite (first_named_none DEVICES "Unknown" (not_alias_everywhere _ Hno)).
      reflexivity.
Qed.

Lemma getDeviceSlug_of_display_name_witness :
  @getDeviceSlug sample_devices (@getDisplayName sample_devices "rpi") =
  @getDeviceSlug sample_devices "rpi".
Proof.
  apply (@getDeviceSlug_of_display_name sample_devices "rpi").
  right. intros (k & v & l & Hin & Hl & Hd). vm_compute in Hin.
  destruct Hin as [[= <- <-] | [[= <- <-] | [[= <- <-] | []]]];
    simpl in Hl; try discriminate Hl; injection Hl as <-;
    vm_compute in Hd; intuition discriminate.
Defined.

End DeviceExtras.
